(** * replace.py: namespacing the jscoverage markers of a file

    The script reads the file named by [sys.argv[1]], rewrites every match
    of the regular expression made of the literal [_$jscoverage['], one
    group holding a greedy star of the dot, and the literal [']], to
    [_$jscoverage['<sys.argv[2]>/<group 1>']] with [re.sub], seeks back to
    the start of the file and writes the result over the old content.

    Python 2 strings are byte strings: they are modelled as [list ascii].
    Exceptions are modelled by an error monad, the open file by a record
    holding the bytes of the file and the position of the handle. *)

From Stdlib Require Import Ascii String Arith Lia Bool List.
From Equations Require Import Equations.
Import ListNotations.

(** ** Byte strings *)

Definition str := list ascii.

(** A literal of the source. *)
Definition lit (s : string) : str := list_ascii_of_string s.

Definition newline : ascii := ascii_of_nat 10.

Definition is_newline (c : ascii) : bool := Ascii.eqb c newline.

(** [s.startswith(w)], returning what follows [w]. *)
Fixpoint strip (w s : str) : option str :=
  match w with
  | [] => Some s
  | a :: w' =>
      match s with
      | [] => None
      | c :: s' => if Ascii.eqb a c then strip w' s' else None
      end
  end.

(** ** Exceptions *)

Inductive exn : Type := IndexError | IOError.

Inductive result (A : Type) : Type :=
| Ok (a : A)
| Raise (e : exn).

Arguments Ok {A} a.
Arguments Raise {A} e.

Definition bind {A B : Type} (m : result A) (k : A -> result B) : result B :=
  match m with
  | Ok a => k a
  | Raise e => Raise e
  end.

Notation "x <- m ;; k" := (bind m (fun x => k))
  (at level 61, m at next level, right associativity).

(** [l[i]] of a Python list: [IndexError] out of range. *)
Definition getitem {A : Type} (l : list A) (i : nat) : result A :=
  match nth_error l i with
  | Some a => Ok a
  | None => Raise IndexError
  end.

(** ** The regular expression *)

(** The literal text before the group and the literal text after it. *)
Definition p_open : str := lit "_$jscoverage['".
Definition p_close : str := lit "']".

(** The group (a starred dot) followed by the closing literal, on a backtracking
    matcher: [.] takes any byte but a newline, the star is greedy, so the
    matcher first lets the group take one more byte and only when the rest
    of the pattern cannot match after that tries to close the group here.
    The result is group 1 and the text after the match. *)
Fixpoint dotstar (t : str) : option (str * str) :=
  match t with
  | [] => None
  | c :: t' =>
      if is_newline c then None
      else
        match dotstar t' with
        | Some (g, r) => Some (c :: g, r)
        | None =>
            match strip p_close t with
            | Some r => Some ([], r)
            | None => None
            end
        end
  end.

(** The pattern matched at the start of [s] ([re.match]). *)
Definition match_here (s : str) : option (str * str) :=
  match strip p_open s with
  | Some t => dotstar t
  | None => None
  end.

(** ** The replacement function of the script *)

(** [repl(matchobj)]: the format [_$jscoverage['%s/%s']] filled with
    [sys.argv[2]] and [matchobj.group(1)]. *)
Definition repl (argv : list str) (group1 : str) : result str :=
  prefix <- getitem argv 2 ;;
  Ok (p_open ++ prefix ++ lit "/" ++ group1 ++ p_close).

(** No byte of [g] is a newline. *)
Definition nonl (g : str) : Prop := Forall (fun c => is_newline c = false) g.

(** ** A match consumes input

    The facts on the matcher that the termination of the scan of [re.sub]
    rests on. *)

Lemma strip_Some (w s t : str) : strip w s = Some t <-> s = w ++ t.
Proof.
  revert s; induction w as [|a w IH]; intros s; simpl.
  - split; intros H; inversion H; reflexivity.
  - destruct s as [|c s]; [split; discriminate|].
    destruct (Ascii.eqb_spec a c) as [->|Hne].
    + rewrite IH. split; intros H; [subst; reflexivity | inversion H; reflexivity].
    + split; [discriminate | intros H; inversion H; subst; contradiction].
Qed.

Lemma strip_app (w t : str) : strip w (w ++ t) = Some t.
Proof. apply strip_Some; reflexivity. Qed.

Lemma dotstar_nil : dotstar [] = None.
Proof. reflexivity. Qed.

Lemma dotstar_cons (c : ascii) (t : str) :
  dotstar (c :: t) =
  if is_newline c then None
  else match dotstar t with
       | Some (g, r) => Some (c :: g, r)
       | None => match strip p_close (c :: t) with
                 | Some r => Some ([], r)
                 | None => None
                 end
       end.
Proof. reflexivity. Qed.

Arguments strip : simpl never.
Arguments dotstar : simpl never.
Arguments match_here : simpl never.

(** What a successful match of the group is: the text splits into the
    group, free of newlines, the closing literal and the rest. *)
Lemma dotstar_Some (t g r : str) :
  dotstar t = Some (g, r) -> t = g ++ p_close ++ r /\ nonl g.
Proof.
  revert g r; induction t as [|c t IH]; intros g r; [discriminate|].
  rewrite dotstar_cons. destruct (is_newline c) eqn:Hc; [discriminate|].
  destruct (dotstar t) as [[g' r']|].
  - intros H; inversion H; subst. destruct (IH _ _ eq_refl) as [-> Hg].
    split; [reflexivity | constructor; assumption].
  - destruct (strip p_close (c :: t)) as [r'|] eqn:E; [|discriminate].
    intros H; inversion H; subst. apply strip_Some in E.
    split; [exact E | constructor].
Qed.

Lemma match_here_Some (s g r : str) :
  match_here s = Some (g, r) -> s = p_open ++ g ++ p_close ++ r /\ nonl g.
Proof.
  unfold match_here. destruct (strip p_open s) as [t|] eqn:E; [|discriminate].
  intros H. apply dotstar_Some in H. apply strip_Some in E.
  destruct H as [-> Hg]. split; assumption.
Qed.

Lemma match_here_length (s g r : str) :
  match_here s = Some (g, r) -> length r < length s.
Proof.
  intros H. apply match_here_Some in H. destruct H as [-> _].
  rewrite !length_app. simpl. lia.
Qed.

(** ** [re.sub] *)

Definition inspect {A : Type} (a : A) : {b : A | a = b} := exist _ a eq_refl.

(** [re.sub(pattern, repl, string)] with a function for [repl]: the string is
    scanned from left to right; where the pattern matches, the match is
    replaced by what [repl] returns for it and the scan goes on after the
    match; elsewhere one byte is copied.  An exception of [repl] ends the
    call. *)
Equations? re_sub (f : str -> result str) (s : str) : result str
  by wf (length s) lt :=
  re_sub f [] := Ok [];
  re_sub f (c :: t) with inspect (match_here (c :: t)) := {
    | exist _ (Some (g, r)) _ =>
        x <- f g ;; y <- re_sub f r ;; Ok (x ++ y);
    | exist _ None _ =>
        y <- re_sub f t ;; Ok (c :: y) }.
Proof.
  apply match_here_length in e. exact e.
Qed.

(** ** The file object *)

(** An open file: the bytes of the file and the position of the handle. *)
Record file : Type := mkfile { f_data : str; f_pos : nat }.

(** [f.read()]: everything from the position to the end of the file. *)
Definition read (f : file) : str * file :=
  (skipn (f_pos f) (f_data f),
   mkfile (f_data f) (Nat.max (f_pos f) (length (f_data f)))).

(** [f.seek(offset)]. *)
Definition seek (offset : nat) (f : file) : file :=
  mkfile (f_data f) offset.

(** [f.write(w)]: the bytes of [w] go over those at the position, the file
    grows when they reach beyond its end (and is filled with zeros up to a
    position beyond its end); the bytes after the written ones stay. *)
Definition write (w : str) (f : file) : file :=
  mkfile (firstn (f_pos f) (f_data f)
            ++ repeat zero (f_pos f - length (f_data f))
            ++ w
            ++ skipn (f_pos f + length w) (f_data f))
         (f_pos f + length w).

(** The files of the disk that can be opened for reading and writing, by
    path: a path that names no file, a directory, or a file that the script
    may not read or write has no entry. *)
Definition fs := str -> option str.

Definition path_eqb (p q : str) : bool :=
  if list_eq_dec ascii_dec p q then true else false.

Definition store (disk : fs) (path data : str) : fs :=
  fun q => if path_eqb q path then Some data else disk q.

(** [open(path, "r+")]: the file must be one that can be opened for reading
    and writing, an [IOError] otherwise; it is not truncated and the handle
    is at its start. *)
Definition open_rw (disk : fs) (path : str) : result file :=
  match disk path with
  | Some data => Ok (mkfile data 0)
  | None => Raise IOError
  end.

(** [f.close()]: the bytes of the handle are those of the file on disk. *)
Definition close (disk : fs) (path : str) (f : file) : fs :=
  store disk path (f_data f).

(** ** The script *)

(** The body of replace.py, run with the arguments [argv] on [disk].  The
    one write is the last step: when an exception ends the run, the disk is
    as it was. *)
Definition main (argv : list str) (disk : fs) : result fs :=
  path <- getitem argv 1 ;;
  text_file <- open_rw disk path ;;
  let (whole_thing, text_file) := read text_file in
  whole_thing <- re_sub (repl argv) whole_thing ;;
  let text_file := seek 0 text_file in
  let text_file := write whole_thing text_file in
  Ok (close disk path text_file).

(** ** Markers of a text *)

(** The marker for [ident]. *)
Definition marker (ident : str) : str := p_open ++ ident ++ p_close.

(** The number of positions of [s] where the pattern matches. *)
Fixpoint count_markers (s : str) : nat :=
  match s with
  | [] => 0
  | c :: t => (if match_here s is Some _ then 1 else 0) + count_markers t
  end.

(** The number of matches [re.sub] replaces in [s]. *)
Equations? count_matches (s : str) : nat by wf (length s) lt :=
  count_matches [] := 0;
  count_matches (c :: t) with inspect (match_here (c :: t)) := {
    | exist _ (Some (g, r)) _ => S (count_matches r);
    | exist _ None _ => count_matches t }.
Proof.
  apply match_here_length in e. exact e.
Qed.

(** The transformation of a text for a given prefix, as a total function. *)
Definition value (m : result str) : str :=
  match m with
  | Ok a => a
  | Raise _ => []
  end.

Definition sub (prefix s : str) : str :=
  value (re_sub (fun g => Ok (marker (prefix ++ lit "/" ++ g))) s).

(** ** Texts given by their markers *)

(** A text with the markers for the identifiers of [segs], each after its
    gap, and [last] after the last marker. *)
Fixpoint build (segs : list (str * str)) (last : str) : str :=
  match segs with
  | [] => last
  | (gap, ident) :: segs' => gap ++ marker ident ++ build segs' last
  end.

(** The same text with every identifier under the prefix. *)
Definition namespaced (prefix : str) (segs : list (str * str))
  : list (str * str) :=
  map (fun seg => (fst seg, prefix ++ lit "/" ++ snd seg)) segs.

Definition no_newline (g : str) : bool :=
  forallb (fun c => negb (is_newline c)) g.

Definition has_newline (g : str) : bool := existsb is_newline g.

(** The identifiers hold no newline. *)
Definition idents_ok (segs : list (str * str)) : bool :=
  forallb (fun seg => no_newline (snd seg)) segs.

(** A newline stands between any two markers that follow each other. *)
Definition one_per_line (segs : list (str * str)) : bool :=
  forallb (fun seg => has_newline (fst seg)) (tl segs).

(** Applying the rewriting to its own result. *)
Definition twice (argv : list str) (s : str) : result str :=
  once <- re_sub (repl argv) s ;; re_sub (repl argv) once.

(** The number of newlines of a text. *)
Definition newlines (s : str) : nat := count_occ ascii_dec s newline.

(** The part of a text after its last newline. *)
Fixpoint last_line (s : str) : str :=
  match s with
  | [] => []
  | c :: t =>
      if has_newline t then last_line t
      else if is_newline c then t else c :: t
  end.

(** The run of the script with the disk it leaves behind.  An exception
    ends the run where it is raised and the disk is then as the steps
    before it left it: opening with [r+] and reading change nothing, the
    bytes of the file change with the last steps only. *)
Definition run (argv : list str) (disk : fs) : fs * result unit :=
  match getitem argv 1 with
  | Raise e => (disk, Raise e)
  | Ok path =>
      match open_rw disk path with
      | Raise e => (disk, Raise e)
      | Ok text_file =>
          let (whole_thing, text_file) := read text_file in
          match re_sub (repl argv) whole_thing with
          | Raise e => (disk, Raise e)
          | Ok whole_thing =>
              let text_file := seek 0 text_file in
              let text_file := write whole_thing text_file in
              (close disk path text_file, Ok tt)
          end
      end
  end.

(** * Lemmas *)

(** ** Unfolding [re.sub] *)

Lemma re_sub_cons (f : str -> result str) (c : ascii) (t : str) :
  re_sub f (c :: t) =
  match match_here (c :: t) with
  | Some (g, r) => x <- f g ;; y <- re_sub f r ;; Ok (x ++ y)
  | None => y <- re_sub f t ;; Ok (c :: y)
  end.
Proof.
  rewrite re_sub_equation_2. unfold inspect.
  enough (H : forall o (e : match_here (c :: t) = o),
             re_sub_unfold_clause_2 f c t (exist _ o e) =
             match o with
             | Some (g, r) => x <- f g ;; y <- re_sub f r ;; Ok (x ++ y)
             | None => y <- re_sub f t ;; Ok (c :: y)
             end) by apply H.
  intros [[g r]|] e; reflexivity.
Qed.

Lemma count_matches_cons (c : ascii) (t : str) :
  count_matches (c :: t) =
  match match_here (c :: t) with
  | Some (g, r) => S (count_matches r)
  | None => count_matches t
  end.
Proof.
  rewrite count_matches_equation_2. unfold inspect.
  enough (H : forall o (e : match_here (c :: t) = o),
             count_matches_unfold_clause_2 c t (exist _ o e) =
             match o with
             | Some (g, r) => S (count_matches r)
             | None => count_matches t
             end) by apply H.
  intros [[g r]|] e; reflexivity.
Qed.

(** Induction along the scan of [re.sub]. *)
Lemma scan_ind (P : str -> Prop) :
  P [] ->
  (forall c t g r, match_here (c :: t) = Some (g, r) -> P r -> P (c :: t)) ->
  (forall c t, match_here (c :: t) = None -> P t -> P (c :: t)) ->
  forall s, P s.
Proof.
  intros Hnil Hm Hc s.
  induction s as [s IH] using (well_founded_induction
                                 (Wf_nat.well_founded_ltof _ (@length ascii))).
  destruct s as [|c t]; [exact Hnil|].
  destruct (match_here (c :: t)) as [[g r]|] eqn:E.
  - apply (Hm c t g r E). apply IH. unfold Wf_nat.ltof.
    apply match_here_length in E. exact E.
  - apply (Hc c t E). apply IH. unfold Wf_nat.ltof. simpl. lia.
Qed.

Lemma repl_prefix (argv : list str) (prefix g : str) :
  nth_error argv 2 = Some prefix ->
  repl argv g = Ok (marker (prefix ++ lit "/" ++ g)).
Proof.
  intros H. unfold repl, getitem. rewrite H. simpl. unfold marker.
  rewrite <- !app_assoc. reflexivity.
Qed.

Lemma repl_missing (argv : list str) (g : str) :
  nth_error argv 2 = None -> repl argv g = Raise IndexError.
Proof. intros H. unfold repl, getitem. rewrite H. reflexivity. Qed.

Lemma re_sub_ext (f h : str -> result str) (s : str) :
  (forall g, f g = h g) -> re_sub f s = re_sub h s.
Proof.
  intros E. induction s as [|c t g r Hm IH|c t Hm IH] using scan_ind.
  - rewrite !re_sub_equation_1. reflexivity.
  - rewrite !re_sub_cons, Hm, E, IH. reflexivity.
  - rewrite !re_sub_cons, Hm, IH. reflexivity.
Qed.

(** With a replacement function that raises nothing, [re.sub] raises
    nothing. *)
Lemma re_sub_total (h : str -> str) (s : str) :
  exists out, re_sub (fun g => Ok (h g)) s = Ok out.
Proof.
  induction s as [|c t g r Hm [out IH]|c t Hm [out IH]] using scan_ind.
  - exists []. apply re_sub_equation_1.
  - exists (h g ++ out). rewrite re_sub_cons, Hm. cbn [bind]. rewrite IH.
    reflexivity.
  - exists (c :: out). rewrite re_sub_cons, Hm, IH. reflexivity.
Qed.

Lemma re_sub_sub (prefix s : str) :
  re_sub (fun g => Ok (marker (prefix ++ lit "/" ++ g))) s = Ok (sub prefix s).
Proof.
  unfold sub.
  destruct (re_sub_total (fun g => marker (prefix ++ lit "/" ++ g)) s) as [out E].
  rewrite E. reflexivity.
Qed.

Lemma re_sub_repl (argv : list str) (prefix s : str) :
  nth_error argv 2 = Some prefix ->
  re_sub (repl argv) s = Ok (sub prefix s).
Proof.
  intros H. rewrite <- re_sub_sub. apply re_sub_ext.
  intros g. apply repl_prefix. exact H.
Qed.

Lemma sub_nil (prefix : str) : sub prefix [] = [].
Proof. unfold sub. rewrite re_sub_equation_1. reflexivity. Qed.

Lemma sub_match (prefix : str) (c : ascii) (t g r : str) :
  match_here (c :: t) = Some (g, r) ->
  sub prefix (c :: t) = marker (prefix ++ lit "/" ++ g) ++ sub prefix r.
Proof.
  intros Hm. unfold sub at 1. rewrite re_sub_cons, Hm. cbn [bind].
  rewrite re_sub_sub. reflexivity.
Qed.

Lemma sub_copy (prefix : str) (c : ascii) (t : str) :
  match_here (c :: t) = None ->
  sub prefix (c :: t) = c :: sub prefix t.
Proof.
  intros Hm. unfold sub at 1. rewrite re_sub_cons, Hm.
  rewrite re_sub_sub. reflexivity.
Qed.

(** ** The greedy group *)

Arguments p_open : simpl never.
Arguments p_close : simpl never.

Lemma nonl_app (a b : str) : nonl a -> nonl b -> nonl (a ++ b).
Proof. intros Ha Hb. apply Forall_app. split; assumption. Qed.

Lemma nonl_lit_slash : nonl (lit "/").
Proof. repeat constructor. Qed.

Lemma nonl_p_open : nonl p_open.
Proof. repeat constructor. Qed.

Lemma nonl_p_close : nonl p_close.
Proof. repeat constructor. Qed.

(** The group takes the bytes of [a] when the match can be completed after
    them. *)
Lemma dotstar_prepend (a b g r : str) :
  nonl a -> dotstar b = Some (g, r) -> dotstar (a ++ b) = Some (a ++ g, r).
Proof.
  intros Ha Hb. induction Ha as [|c a Hc Ha IH]; [exact Hb|].
  simpl. rewrite dotstar_cons, Hc, IH. reflexivity.
Qed.

(** At a closing literal the group goes on when a later one ends a match,
    and ends here otherwise. *)
Lemma dotstar_close (b : str) :
  dotstar (p_close ++ b) =
  match dotstar b with
  | Some (g, r) => Some (p_close ++ g, r)
  | None => Some ([], b)
  end.
Proof.
  destruct (dotstar b) as [[g r]|] eqn:E.
  - apply dotstar_prepend; [apply nonl_p_close | exact E].
  - change (p_close ++ b) with ("'"%char :: "]"%char :: b).
    rewrite dotstar_cons. cbn [is_newline Ascii.eqb].
    change (is_newline "'"%char) with false. cbv iota.
    rewrite dotstar_cons. change (is_newline "]"%char) with false. cbv iota.
    rewrite E.
    change (strip p_close ("]"%char :: b)) with (@None str).
    change ("'"%char :: "]"%char :: b) with (p_close ++ b).
    rewrite strip_app. reflexivity.
Qed.

(** Greedy: after a match no closing literal is left on the line. *)
Lemma dotstar_rest (t g r : str) :
  dotstar t = Some (g, r) -> dotstar r = None.
Proof.
  revert g r; induction t as [|c t IH]; intros g r; [discriminate|].
  rewrite dotstar_cons. destruct (is_newline c); [discriminate|].
  destruct (dotstar t) as [[g' r']|] eqn:E.
  - intros H; inversion H; subst. apply (IH _ _ eq_refl).
  - destruct (strip p_close (c :: t)) as [r'|] eqn:Es; [|discriminate].
    intros H; inversion H; subst. apply strip_Some in Es.
    change (p_close ++ r) with ("'"%char :: "]"%char :: r) in Es.
    inversion Es; subst.
    destruct (dotstar r) as [[g2 r2]|] eqn:E2; [|reflexivity].
    assert (H2 : dotstar (["]"%char] ++ r) = Some (["]"%char] ++ g2, r2))
      by (apply dotstar_prepend; [repeat constructor | exact E2]).
    simpl in H2. congruence.
Qed.

(** A newline-free text followed by the closing literal always lets the
    group match. *)
Lemma dotstar_marker (a b : str) :
  nonl a ->
  dotstar (a ++ p_close ++ b) =
  match dotstar b with
  | Some (g, r) => Some (a ++ p_close ++ g, r)
  | None => Some (a, b)
  end.
Proof.
  intros Ha. pose proof (dotstar_close b) as Hc.
  destruct (dotstar b) as [[g r]|].
  - apply dotstar_prepend; assumption.
  - rewrite <- (app_nil_r a) at 2. apply dotstar_prepend; assumption.
Qed.

Lemma dotstar_None_app (a b : str) :
  nonl a -> dotstar (a ++ b) = None -> dotstar b = None.
Proof.
  intros Ha H. destruct (dotstar b) as [[g r]|] eqn:E; [|reflexivity].
  rewrite (dotstar_prepend a b g r Ha E) in H. discriminate.
Qed.

Lemma match_here_open (t : str) : match_here (p_open ++ t) = dotstar t.
Proof. unfold match_here. rewrite strip_app. reflexivity. Qed.

Lemma match_here_rest (s g r : str) :
  match_here s = Some (g, r) -> dotstar r = None.
Proof.
  unfold match_here. destruct (strip p_open s); [|discriminate].
  apply dotstar_rest.
Qed.

(** No match starts where no closing literal is left on the line. *)
Lemma match_here_None (s : str) : dotstar s = None -> match_here s = None.
Proof.
  intros H. destruct (match_here s) as [[g r]|] eqn:E; [|reflexivity].
  apply match_here_Some in E. destruct E as [-> Hg].
  rewrite app_assoc, dotstar_marker in H
    by (apply nonl_app; [apply nonl_p_open | exact Hg]).
  destruct (dotstar r) as [[? ?]|]; discriminate.
Qed.

(** ** Counting markers *)

Lemma count_markers_cons (c : ascii) (t : str) :
  count_markers (c :: t) =
  (if match_here (c :: t) is Some _ then 1 else 0) + count_markers t.
Proof. reflexivity. Qed.

Arguments count_markers : simpl never.

Lemma count_markers_app_le (a b : str) :
  count_markers b <= count_markers (a ++ b).
Proof.
  induction a as [|c a IH]; [apply Nat.le_refl|].
  simpl. rewrite count_markers_cons. lia.
Qed.

(** The text after a match is a part of the tail of the text. *)
Lemma match_here_tail (c : ascii) (t g r : str) :
  match_here (c :: t) = Some (g, r) ->
  c = "_"%char /\ t = (tl p_open ++ g ++ p_close) ++ r.
Proof.
  intros H. apply match_here_Some in H. destruct H as [Hs _].
  change p_open with ("_"%char :: tl p_open) in Hs. simpl in Hs.
  injection Hs as Hc Ht. rewrite <- !app_assoc. split; assumption.
Qed.

(** The matches [re.sub] replaces are among the marker positions. *)
Lemma count_matches_le (s : str) : count_matches s <= count_markers s.
Proof.
  induction s as [|c t g r Hm IH|c t Hm IH] using scan_ind.
  - rewrite count_matches_equation_1. apply Nat.le_0_l.
  - rewrite count_matches_cons, count_markers_cons, Hm.
    apply match_here_tail in Hm. destruct Hm as [_ Ht].
    assert (Hr : count_markers r <= count_markers t)
      by (rewrite Ht; apply count_markers_app_le).
    lia.
  - rewrite count_matches_cons, count_markers_cons, Hm. exact IH.
Qed.

(** Where a marker position exists, [re.sub] finds a match. *)
Lemma count_matches_pos (s : str) :
  0 < count_markers s -> 0 < count_matches s.
Proof.
  induction s as [|c t IH]; [intros H; inversion H|].
  rewrite count_markers_cons, count_matches_cons.
  destruct (match_here (c :: t)) as [[g r]|]; [lia|].
  simpl. exact IH.
Qed.

(** ** Texts without a marker *)

Lemma re_sub_no_marker (f : str -> result str) (s : str) :
  count_markers s = 0 -> re_sub f s = Ok s.
Proof.
  induction s as [|c t IH]; intros H.
  - apply re_sub_equation_1.
  - rewrite count_markers_cons in H. rewrite re_sub_cons.
    destruct (match_here (c :: t)) as [[g r]|]; [discriminate|].
    rewrite IH by exact H. reflexivity.
Qed.

Lemma sub_no_marker (prefix s : str) :
  count_markers s = 0 -> sub prefix s = s.
Proof.
  intros H. unfold sub. rewrite re_sub_no_marker by exact H. reflexivity.
Qed.

(** A stretch of text where no match starts is copied. *)
Lemma sub_copy_app (prefix a b : str) :
  count_markers (a ++ b) = count_markers b ->
  sub prefix (a ++ b) = a ++ sub prefix b.
Proof.
  induction a as [|c a IH]; intros H; [reflexivity|].
  simpl in *. rewrite count_markers_cons in H.
  pose proof (count_markers_app_le a b) as Hle.
  destruct (match_here (c :: a ++ b)) as [[g r]|] eqn:E; [lia|].
  rewrite sub_copy by exact E. rewrite IH by lia. reflexivity.
Qed.

(** ** The length of the result *)

Lemma length_marker (ident : str) : length (marker ident) = 16 + length ident.
Proof.
  unfold marker. rewrite !length_app.
  change (length p_open) with 14. change (length p_close) with 2. lia.
Qed.

Lemma length_sub (prefix s : str) :
  length (sub prefix s) = length s + count_matches s * (length prefix + 1).
Proof.
  induction s as [|c t g r Hm IH|c t Hm IH] using scan_ind.
  - rewrite sub_nil, count_matches_equation_1. reflexivity.
  - rewrite (sub_match prefix c t g r Hm), count_matches_cons, Hm.
    apply match_here_Some in Hm. destruct Hm as [-> _].
    rewrite length_app, IH, length_marker, !length_app.
    change (length p_open) with 14. change (length p_close) with 2.
    change (length (lit "/")) with 1. lia.
  - rewrite (sub_copy prefix c t Hm), count_matches_cons, Hm.
    simpl. rewrite IH. lia.
Qed.

(** ** Rewriting a rewritten text *)

Lemma sub_open (prefix t g r : str) :
  dotstar t = Some (g, r) ->
  sub prefix (p_open ++ t) = marker (prefix ++ lit "/" ++ g) ++ sub prefix r.
Proof.
  intros H.
  assert (Hm : match_here ("_"%char :: (tl p_open ++ t)) = Some (g, r))
    by exact (eq_trans (match_here_open t) H).
  exact (sub_match prefix "_"%char (tl p_open ++ t) g r Hm).
Qed.

(** The first byte of a text is the first byte of its rewriting. *)
Lemma hd_error_sub (prefix s : str) :
  hd_error (sub prefix s) = hd_error s.
Proof.
  destruct s as [|c t]; [rewrite sub_nil; reflexivity|].
  destruct (match_here (c :: t)) as [[g r]|] eqn:E.
  - rewrite (sub_match prefix c t g r E).
    apply match_here_tail in E. destruct E as [-> _]. reflexivity.
  - rewrite (sub_copy prefix c t E). reflexivity.
Qed.

(** A line without a closing literal has none after the rewriting. *)
Lemma dotstar_sub_None (prefix t : str) :
  dotstar t = None -> dotstar (sub prefix t) = None.
Proof.
  induction t as [|c t IH]; intros H; [rewrite sub_nil; reflexivity|].
  rewrite (sub_copy prefix c t (match_here_None _ H)).
  rewrite dotstar_cons in *.
  destruct (is_newline c); [reflexivity|].
  destruct (dotstar t) as [[g r]|]; [discriminate|].
  rewrite IH by reflexivity.
  destruct (strip p_close (c :: t)) as [r|] eqn:E; [discriminate|].
  destruct (strip p_close (c :: sub prefix t)) as [r|] eqn:E'; [|reflexivity].
  exfalso. apply strip_Some in E'.
  change (p_close ++ r) with ("'"%char :: "]"%char :: r) in E'.
  injection E' as -> E'.
  pose proof (hd_error_sub prefix t) as Hhd. rewrite E' in Hhd.
  destruct t as [|d t]; [discriminate|]. simpl in Hhd. injection Hhd as <-.
  change ("'"%char :: "]"%char :: t) with (p_close ++ t) in E.
  rewrite strip_app in E. discriminate.
Qed.

(** A stretch without the first byte of the pattern at the head of a
    rewritten text was copied from the text. *)
Lemma sub_copied (prefix u x t : str) :
  ~ In "_"%char u -> sub prefix t = u ++ x ->
  exists y, t = u ++ y /\ sub prefix y = x.
Proof.
  revert t; induction u as [|a u IH]; intros t Hu H.
  - exists t. split; [reflexivity | exact H].
  - destruct t as [|c t]; [rewrite sub_nil in H; discriminate|].
    destruct (match_here (c :: t)) as [[g r]|] eqn:E.
    + rewrite (sub_match prefix c t g r E) in H. unfold marker in H.
      change p_open with ("_"%char :: tl p_open) in H. simpl in H.
      injection H as Ha _. exfalso. apply Hu. left. symmetry. exact Ha.
    + rewrite (sub_copy prefix c t E) in H. simpl in H. injection H as -> H.
      destruct (IH t) as [y [-> Hy]]; [|exact H|].
      * intros Hin. apply Hu. right. exact Hin.
      * exists y. split; [reflexivity | exact Hy].
Qed.

(** Where no match starts in a text, none starts after its tail is
    rewritten. *)
Lemma match_here_sub_None (prefix : str) (c : ascii) (t : str) :
  match_here (c :: t) = None -> match_here (c :: sub prefix t) = None.
Proof.
  intros H.
  destruct (match_here (c :: sub prefix t)) as [[g r]|] eqn:E; [|reflexivity].
  exfalso. pose proof (match_here_Some _ _ _ E) as [_ Hg].
  apply match_here_tail in E. destruct E as [-> E].
  rewrite <- !app_assoc in E.
  apply sub_copied in E.
  - destruct E as [y [-> Hy]].
    change ("_"%char :: tl p_open ++ y) with (p_open ++ y) in H.
    rewrite match_here_open in H.
    apply (dotstar_sub_None prefix) in H. rewrite Hy in H.
    rewrite dotstar_marker in H by exact Hg.
    destruct (dotstar r) as [[? ?]|]; discriminate.
  - cbv. intros Hin.
    repeat (destruct Hin as [Hin|Hin]; [discriminate|]). exact Hin.
Qed.

(** Two rewritings with a newline-free prefix are one rewriting with the
    prefix doubled. *)
Lemma sub_sub (prefix s : str) :
  nonl prefix ->
  sub prefix (sub prefix s) = sub (prefix ++ lit "/" ++ prefix) s.
Proof.
  intros Hp. induction s as [|c t g r Hm IH|c t Hm IH] using scan_ind.
  - rewrite !sub_nil. reflexivity.
  - rewrite (sub_match prefix c t g r Hm).
    rewrite (sub_match (prefix ++ lit "/" ++ prefix) c t g r Hm).
    pose proof (match_here_Some _ _ _ Hm) as [_ Hg].
    apply match_here_rest in Hm.
    unfold marker at 1. rewrite <- app_assoc.
    rewrite (sub_open prefix _ (prefix ++ lit "/" ++ g) (sub prefix r)).
    + rewrite IH. unfold marker. rewrite <- !app_assoc. reflexivity.
    + rewrite <- app_assoc, dotstar_marker.
      * rewrite (dotstar_sub_None prefix r Hm). reflexivity.
      * apply nonl_app; [exact Hp|]. apply nonl_app; [apply nonl_lit_slash|exact Hg].
  - rewrite (sub_copy prefix c t Hm).
    rewrite (sub_copy (prefix ++ lit "/" ++ prefix) c t Hm).
    rewrite (sub_copy prefix c (sub prefix t)
               (match_here_sub_None prefix c t Hm)).
    rewrite IH. reflexivity.
Qed.

(** ** Rewriting a text given by its markers *)

Lemma no_newline_nonl (g : str) : no_newline g = true <-> nonl g.
Proof.
  unfold no_newline, nonl. rewrite forallb_forall, Forall_forall.
  split; intros H c Hc; specialize (H c Hc);
    destruct (is_newline c); simpl in *; congruence.
Qed.

(** A newline-free text at the head of a text that starts with a gap
    holding a newline lies within the gap. *)
Lemma nonl_in_gap (a r gap rest : str) :
  nonl a -> has_newline gap = true -> a ++ r = gap ++ rest ->
  exists gap', gap = a ++ gap' /\ r = gap' ++ rest.
Proof.
  intros Ha; revert gap; induction Ha as [|c a Hc Ha IH]; intros gap Hg H.
  - exists gap. split; [reflexivity | exact H].
  - destruct gap as [|d gap]; [discriminate|].
    simpl in H. injection H as <- H. unfold has_newline in Hg. simpl in Hg.
    rewrite Hc in Hg. simpl in Hg.
    destruct (IH gap Hg H) as [gap' [-> ->]].
    exists gap'. split; reflexivity.
Qed.

Lemma count_markers_marker (ident rest : str) :
  nonl ident ->
  count_markers (marker ident ++ rest) =
  1 + count_markers (tl p_open ++ ident ++ p_close ++ rest).
Proof.
  intros Hi. unfold marker. rewrite <- !app_assoc.
  change (p_open ++ ident ++ p_close ++ rest)
    with ("_"%char :: (tl p_open ++ ident ++ p_close ++ rest)).
  rewrite count_markers_cons.
  change ("_"%char :: (tl p_open ++ ident ++ p_close ++ rest))
    with (p_open ++ ident ++ p_close ++ rest).
  rewrite match_here_open, dotstar_marker by exact Hi.
  destruct (dotstar rest) as [[? ?]|]; reflexivity.
Qed.

Lemma count_markers_marker_le (ident rest : str) :
  nonl ident -> 1 + count_markers rest <= count_markers (marker ident ++ rest).
Proof.
  intros Hi. rewrite count_markers_marker by exact Hi.
  pose proof (count_markers_app_le (tl p_open ++ ident ++ p_close) rest) as H.
  rewrite <- !app_assoc in H. exact (le_n_S _ _ H).
Qed.

Lemma build_cons (gap ident : str) (segs : list (str * str)) (last : str) :
  build ((gap, ident) :: segs) last = gap ++ marker ident ++ build segs last.
Proof. reflexivity. Qed.

Lemma idents_ok_cons (gap ident : str) (segs : list (str * str)) :
  idents_ok ((gap, ident) :: segs) = true ->
  nonl ident /\ idents_ok segs = true.
Proof.
  intros H. apply andb_prop in H. destruct H as [Hi H].
  apply no_newline_nonl in Hi. split; assumption.
Qed.

Arguments build : simpl never.
Arguments marker : simpl never.

(** Every marker of a built text is a marker position. *)
Lemma count_markers_build (segs : list (str * str)) (last : str) :
  idents_ok segs = true -> length segs <= count_markers (build segs last).
Proof.
  induction segs as [|[gap ident] segs IH]; intros H; [apply Nat.le_0_l|].
  apply idents_ok_cons in H. destruct H as [Hi H]. specialize (IH H).
  rewrite build_cons. cbn [length].
  pose proof (count_markers_app_le gap (marker ident ++ build segs last)).
  pose proof (count_markers_marker_le ident (build segs last) Hi). lia.
Qed.

Lemma marker_app (ident rest : str) :
  marker ident ++ rest = p_open ++ ident ++ p_close ++ rest.
Proof. unfold marker. rewrite <- !app_assoc. reflexivity. Qed.

(** The markers of a text that holds nothing but them at its marker
    positions, one per line at most, are each put under the prefix; the
    rest of the text is copied. *)
Lemma sub_build (prefix : str) (n : nat) :
  forall (segs : list (str * str)) (last : str),
    length segs = n ->
    idents_ok segs = true ->
    one_per_line segs = true ->
    count_markers (build segs last) = n ->
    sub prefix (build segs last) = build (namespaced prefix segs) last.
Proof.
  induction n as [|n IH]; intros segs last Hlen Hid Hline Hcount.
  - destruct segs; [|discriminate]. apply sub_no_marker. exact Hcount.
  - destruct segs as [|[gap ident] segs]; [discriminate|].
    injection Hlen as Hlen.
    apply idents_ok_cons in Hid. destruct Hid as [Hi Hid].
    rewrite build_cons in *.
    set (s1 := build segs last) in *.
    pose proof (count_markers_app_le gap (marker ident ++ s1)) as H1.
    pose proof (count_markers_marker_le ident s1 Hi) as H2.
    pose proof (count_markers_build segs last Hid) as H3. fold s1 in H3.
    assert (Hs1 : count_markers s1 = n) by lia.
    rewrite sub_copy_app by lia.
    change (namespaced prefix ((gap, ident) :: segs))
      with ((gap, prefix ++ lit "/" ++ ident) :: namespaced prefix segs).
    rewrite build_cons. f_equal.
    rewrite (marker_app ident s1).
    pose proof (dotstar_marker ident s1 Hi) as Hd.
    destruct (dotstar s1) as [[g' r']|] eqn:Es1.
    + rewrite (sub_open prefix _ _ _ Hd).
      apply dotstar_Some in Es1. destruct Es1 as [Es1 Hg'].
      assert (Hr' : n <= count_markers r' -> count_markers r' = n).
      { intros Hle. pose proof (count_markers_app_le (g' ++ p_close) r') as H4.
        rewrite <- app_assoc, <- Es1 in H4. lia. }
      subst s1. destruct segs as [|[gap1 ident1] segs].
      * change (build [] last) with last in *.
        change (build (namespaced prefix []) last) with last.
        cbn [length] in Hlen. subst n.
        rewrite sub_no_marker by (apply Hr'; apply Nat.le_0_l).
        rewrite Es1. unfold marker. rewrite <- !app_assoc. reflexivity.
      * rewrite build_cons in Es1.
        assert (Hgap : has_newline gap1 = true).
        { unfold one_per_line in Hline. simpl in Hline.
          apply andb_prop in Hline. apply Hline. }
        destruct (nonl_in_gap (g' ++ p_close) r' gap1
                    (marker ident1 ++ build segs last)) as [gap' [Eg Er]].
        { apply nonl_app; [exact Hg' | apply nonl_p_close]. }
        { exact Hgap. }
        { rewrite <- app_assoc. symmetry. exact Es1. }
        assert (Hb : r' = build ((gap', ident1) :: segs) last)
          by (rewrite build_cons; exact Er).
        rewrite Hb.
        rewrite (IH ((gap', ident1) :: segs) last).
        -- change (namespaced prefix ((gap', ident1) :: segs))
             with ((gap', prefix ++ lit "/" ++ ident1) :: namespaced prefix segs).
           change (namespaced prefix ((gap1, ident1) :: segs))
             with ((gap1, prefix ++ lit "/" ++ ident1) :: namespaced prefix segs).
           rewrite !build_cons. rewrite Eg. unfold marker.
           rewrite <- !app_assoc. reflexivity.
        -- exact Hlen.
        -- exact Hid.
        -- unfold one_per_line in *. simpl in *.
           apply andb_prop in Hline. apply Hline.
        -- rewrite <- Hb. apply Hr'. rewrite Hb, <- Hlen.
           change (length ((gap1, ident1) :: segs))
             with (length ((gap', ident1) :: segs)).
           apply count_markers_build. exact Hid.
    + rewrite (sub_open prefix _ _ _ Hd).
      subst s1. rewrite (IH segs last Hlen Hid).
      * reflexivity.
      * unfold one_per_line in *. destruct segs as [|seg segs]; [reflexivity|].
        simpl in *. apply andb_prop in Hline. apply Hline.
      * exact Hs1.
Qed.

(** ** The rewriting of texts of several lines *)

Lemma strip_cons (x : ascii) (w s : str) :
  strip (x :: w) s =
  match s with
  | [] => None
  | c :: s' => if Ascii.eqb x c then strip w s' else None
  end.
Proof. reflexivity. Qed.

Lemma strip_line (w a b : str) :
  nonl w ->
  strip w (a ++ newline :: b)
  = option_map (fun r => r ++ newline :: b) (strip w a).
Proof.
  intros Hw; revert a; induction Hw as [|x w Hx Hw IH]; intros a.
  - reflexivity.
  - rewrite !strip_cons. destruct a as [|c a]; cbn [app option_map].
    + unfold is_newline in Hx. rewrite Hx. reflexivity.
    + destruct (Ascii.eqb x c); [apply IH | reflexivity].
Qed.

Lemma dotstar_line (a b : str) :
  dotstar (a ++ newline :: b)
  = option_map (fun gr => (fst gr, snd gr ++ newline :: b)) (dotstar a).
Proof.
  induction a as [|c a IH].
  - reflexivity.
  - cbn [app]. rewrite !dotstar_cons, IH.
    destruct (is_newline c); [reflexivity|].
    destruct (dotstar a) as [[g r]|]; [reflexivity|].
    cbn [option_map].
    change (c :: a ++ newline :: b) with ((c :: a) ++ newline :: b).
    rewrite (strip_line p_close (c :: a) b nonl_p_close).
    destruct (strip p_close (c :: a)); reflexivity.
Qed.

Lemma match_here_line (a b : str) :
  match_here (a ++ newline :: b)
  = option_map (fun gr => (fst gr, snd gr ++ newline :: b)) (match_here a).
Proof.
  unfold match_here. rewrite (strip_line p_open a b nonl_p_open).
  destruct (strip p_open a) as [t|]; [|reflexivity].
  apply dotstar_line.
Qed.

Lemma sub_line (prefix a b : str) :
  sub prefix (a ++ newline :: b) = sub prefix a ++ newline :: sub prefix b.
Proof.
  induction a as [|c t g r Hm IH|c t Hm IH] using scan_ind.
  - rewrite sub_nil. cbn [app]. apply sub_copy.
    exact (match_here_line [] b).
  - pose proof (match_here_line (c :: t) b) as H. rewrite Hm in H.
    cbn [app option_map fst snd] in *.
    rewrite (sub_match prefix c _ g _ H), (sub_match prefix c t g r Hm), IH.
    rewrite <- app_assoc. reflexivity.
  - pose proof (match_here_line (c :: t) b) as H. rewrite Hm in H.
    cbn [app option_map] in *.
    rewrite (sub_copy prefix c _ H), (sub_copy prefix c t Hm), IH.
    reflexivity.
Qed.

(** ** The run of the script *)

Lemma skipn_0_all (w d : str) : length d <= length w -> skipn (length w) d = [].
Proof. intros H. apply skipn_all2. exact H. Qed.

(** The bytes of the file after the one write of the script: those of [w],
    then the bytes of the old content that lie beyond them. *)
Lemma write_at_start (f : file) (w : str) :
  f_data (write w (seek 0 f)) = w ++ skipn (length w) (f_data f).
Proof. reflexivity. Qed.

(** A run with a file and a prefix at hand. *)
Lemma main_prefix (argv : list str) (disk : fs) (path prefix content : str) :
  nth_error argv 1 = Some path ->
  nth_error argv 2 = Some prefix ->
  disk path = Some content ->
  main argv disk =
  Ok (store disk path
        (sub prefix content ++ skipn (length (sub prefix content)) content)).
Proof.
  intros H1 H2 Hd. unfold main, getitem, open_rw. rewrite H1. cbn [bind].
  rewrite Hd. cbn [bind read f_pos f_data skipn].
  rewrite (re_sub_repl argv prefix content H2). reflexivity.
Qed.

(** A run without a prefix. *)
Lemma main_no_prefix (argv : list str) (disk : fs) (path content : str) :
  nth_error argv 1 = Some path ->
  nth_error argv 2 = None ->
  disk path = Some content ->
  main argv disk =
  if count_markers content =? 0 then Ok (store disk path content)
  else Raise IndexError.
Proof.
  intros H1 H2 Hd. unfold main, getitem, open_rw. rewrite H1. cbn [bind].
  rewrite Hd. cbn [bind read f_pos f_data skipn].
  destruct (count_markers content =? 0) eqn:E.
  - apply Nat.eqb_eq in E. rewrite re_sub_no_marker by exact E. cbn [bind].
    unfold close. rewrite write_at_start. cbn [f_data].
    rewrite skipn_all, app_nil_r. reflexivity.
  - apply Nat.eqb_neq in E.
    assert (Hr : re_sub (repl argv) content = Raise IndexError).
    { clear Hd. induction content as [|c t IH]; [contradiction|].
      rewrite count_markers_cons in E. rewrite re_sub_cons.
      destruct (match_here (c :: t)) as [[g r]|].
      - rewrite (repl_missing argv g H2). reflexivity.
      - rewrite IH by exact E. reflexivity. }
    rewrite Hr. reflexivity.
Qed.

Lemma twice_doubles_prefix (a0 a1 prefix : str) (extra : list str) (s : str) :
  no_newline prefix = true ->
  twice (a0 :: a1 :: prefix :: extra) s =
  re_sub (repl (a0 :: a1 :: (prefix ++ lit "/" ++ prefix) :: extra)) s.
Proof.
  intros Hp. apply no_newline_nonl in Hp. unfold twice.
  rewrite (re_sub_repl (a0 :: a1 :: prefix :: extra) prefix s eq_refl).
  cbn [bind].
  rewrite (re_sub_repl (a0 :: a1 :: prefix :: extra) prefix _ eq_refl).
  rewrite (re_sub_repl (a0 :: a1 :: (prefix ++ lit "/" ++ prefix) :: extra)
             (prefix ++ lit "/" ++ prefix) s eq_refl).
  rewrite sub_sub by exact Hp. reflexivity.
Qed.

(** Two markers on one line: the group of the first runs up to the
    closing literal of the second. *)
Lemma two_markers_one_match (a mid b rest : str) :
  nonl a -> nonl mid -> nonl b -> dotstar rest = None ->
  match_here (marker a ++ mid ++ marker b ++ rest) =
  Some (a ++ p_close ++ mid ++ p_open ++ b, rest).
Proof.
  intros Ha Hm Hb Hr. rewrite marker_app, match_here_open.
  replace (a ++ p_close ++ mid ++ marker b ++ rest)
    with ((a ++ p_close ++ mid ++ p_open ++ b) ++ p_close ++ rest)
    by (unfold marker; rewrite <- !app_assoc; reflexivity).
  rewrite dotstar_marker, Hr; [reflexivity|].
  repeat apply nonl_app; auto using nonl_p_open, nonl_p_close.
Qed.

(** * The claims *)

(** ** C1 *)

(** C1. An input whose one marker position holds [_$jscoverage['foo']] is
    rewritten, with the prefix bar, to the same text with
    [_$jscoverage['bar/foo']] in the place of the marker: the bytes before
    and after the marker are those of the input. *)
Theorem C1_single_marker (a0 a1 : str) (extra : list str) (pre post : str) :
  count_markers (pre ++ lit "_$jscoverage['foo']" ++ post) = 1 ->
  re_sub (repl (a0 :: a1 :: lit "bar" :: extra))
         (pre ++ lit "_$jscoverage['foo']" ++ post)
  = Ok (pre ++ lit "_$jscoverage['bar/foo']" ++ post).
Proof.
  intros H.
  rewrite (re_sub_repl (a0 :: a1 :: lit "bar" :: extra) (lit "bar") _ eq_refl).
  f_equal.
  exact (sub_build (lit "bar") 1 [(pre, lit "foo")] post
           eq_refl eq_refl eq_refl H).
Qed.

Lemma C1_single_marker_witness :
  count_markers (lit "if (! " ++ lit "_$jscoverage['foo']" ++ lit ") {") = 1 /\
  re_sub (repl [lit "replace.py"; lit "foo.js"; lit "bar"])
         (lit "if (! " ++ lit "_$jscoverage['foo']" ++ lit ") {")
  = Ok (lit "if (! " ++ lit "_$jscoverage['bar/foo']" ++ lit ") {").
Proof.
  split; [reflexivity|].
  apply (C1_single_marker (lit "replace.py") (lit "foo.js") []
           (lit "if (! ") (lit ") {")).
  reflexivity.
Defined.

(** ** C2 *)

(** C2. The text [_$jscoverage['cassandra.js'][21] = 0;] is rewritten, with
    the prefix db, to [_$jscoverage['db/cassandra.js'][21] = 0;]. *)
Theorem C2_cassandra (a0 a1 : str) (extra : list str) :
  re_sub (repl (a0 :: a1 :: lit "db" :: extra))
         (lit "_$jscoverage['cassandra.js'][21] = 0;")
  = Ok (lit "_$jscoverage['db/cassandra.js'][21] = 0;").
Proof.
  rewrite (re_sub_repl (a0 :: a1 :: lit "db" :: extra) (lit "db") _ eq_refl).
  apply f_equal. vm_compute. reflexivity.
Qed.

(** ** C3 *)

(** C3, as stated, fails: of two markers on one line only the first gets the
    prefix. *)
Lemma C3_counterexample :
  let segs := [(lit "", lit "a.js"); (lit " = 1; ", lit "b.js")] in
  let last := lit " = 2;" in
  let argv := [lit "replace.py"; lit "f.js"; lit "p"] in
  build segs last = lit "_$jscoverage['a.js'] = 1; _$jscoverage['b.js'] = 2;" /\
  idents_ok segs = true /\
  count_markers (build segs last) = length segs /\
  re_sub (repl argv) (build segs last)
  = Ok (lit "_$jscoverage['p/a.js'] = 1; _$jscoverage['b.js'] = 2;") /\
  re_sub (repl argv) (build segs last)
  <> Ok (build (namespaced (lit "p") segs) last).
Proof.
  cbv zeta.
  assert (E : re_sub (repl [lit "replace.py"; lit "f.js"; lit "p"])
                (build [(lit "", lit "a.js"); (lit " = 1; ", lit "b.js")]
                       (lit " = 2;"))
              = Ok (lit "_$jscoverage['p/a.js'] = 1; _$jscoverage['b.js'] = 2;"))
    by (vm_compute; reflexivity).
  repeat split; try reflexivity; try exact E.
  rewrite E. vm_compute. discriminate.
Qed.

(** C3, amended. A text with [N] markers, no two of them on one line, and
    no other marker position is rewritten to the same text with each of the
    [N] identifiers under the prefix: the markers keep their order and their
    place between the gaps, and the gaps are copied. *)
Theorem C3_markers_one_per_line
  (a0 a1 prefix : str) (extra : list str)
  (segs : list (str * str)) (last : str) :
  idents_ok segs = true ->
  one_per_line segs = true ->
  count_markers (build segs last) = length segs ->
  re_sub (repl (a0 :: a1 :: prefix :: extra)) (build segs last)
  = Ok (build (namespaced prefix segs) last)
  /\ length (namespaced prefix segs) = length segs.
Proof.
  intros Hid Hline Hcount. split.
  - rewrite (re_sub_repl (a0 :: a1 :: prefix :: extra) prefix _ eq_refl).
    f_equal. exact (sub_build prefix _ segs last eq_refl Hid Hline Hcount).
  - unfold namespaced. apply length_map.
Qed.

Lemma C3_markers_one_per_line_witness :
  let segs := [(lit "", lit "a.js"); ([newline], lit "b.js")] in
  idents_ok segs = true /\
  one_per_line segs = true /\
  count_markers (build segs (lit ";")) = length segs /\
  re_sub (repl [lit "replace.py"; lit "f.js"; lit "p"]) (build segs (lit ";"))
  = Ok (build (namespaced (lit "p") segs) (lit ";"))
  /\ length (namespaced (lit "p") segs) = length segs.
Proof.
  cbv zeta. split; [reflexivity|]. split; [reflexivity|].
  split; [reflexivity|].
  apply (C3_markers_one_per_line (lit "replace.py") (lit "f.js") (lit "p") []
           [(lit "", lit "a.js"); ([newline], lit "b.js")] (lit ";"));
    reflexivity.
Defined.

(** ** C4 *)

(** C4. There is an input with two markers on one line that the pattern
    matches as a whole: the one match runs from the opening of the first
    marker to the last closing literal of the line, its group holds quote
    bytes, and only the first marker gets the prefix. *)
Theorem C4_greedy_group :
  exists a mid b rest : str,
    let s := marker a ++ mid ++ marker b ++ rest in
    let group := a ++ p_close ++ mid ++ p_open ++ b in
    no_newline s = true /\
    count_markers s = 2 /\
    match_here s = Some (group, rest) /\
    dotstar rest = None /\
    In "'"%char group /\
    count_matches s = 1 /\
    forall (a0 a1 prefix : str) (extra : list str),
      re_sub (repl (a0 :: a1 :: prefix :: extra)) s
      = Ok (marker (prefix ++ lit "/" ++ a) ++ mid ++ marker b ++ rest).
Proof.
  exists (lit "a.js"), (lit "[1] = 0; "), (lit "b.js"), (lit "[2] = 0;").
  cbv zeta.
  assert (Hm : match_here (marker (lit "a.js") ++ lit "[1] = 0; "
                           ++ marker (lit "b.js") ++ lit "[2] = 0;")
               = Some (lit "a.js" ++ p_close ++ lit "[1] = 0; " ++ p_open
                       ++ lit "b.js", lit "[2] = 0;")).
  { apply two_markers_one_match; try (apply no_newline_nonl; reflexivity).
    reflexivity. }
  split; [reflexivity|]. split; [reflexivity|]. split; [exact Hm|].
  split; [reflexivity|]. split; [|split].
  - apply in_or_app. right. left. reflexivity.
  - vm_compute. reflexivity.
  - intros a0 a1 prefix extra.
    rewrite (re_sub_repl (a0 :: a1 :: prefix :: extra) prefix _ eq_refl).
    apply f_equal.
    rewrite marker_app in *.
    change (p_open ++ lit "a.js" ++ p_close ++ lit "[1] = 0; "
            ++ marker (lit "b.js") ++ lit "[2] = 0;")
      with ("_"%char :: (tl p_open ++ lit "a.js" ++ p_close ++ lit "[1] = 0; "
            ++ marker (lit "b.js") ++ lit "[2] = 0;")) in *.
    rewrite (sub_match prefix _ _ _ _ Hm).
    rewrite sub_no_marker by reflexivity.
    unfold marker. rewrite <- !app_assoc. reflexivity.
Qed.

(** ** C5 *)

(** C5. A text without a marker position is returned as it is, whatever the
    arguments of the script, and no exception is raised. *)
Theorem C5_no_marker (argv : list str) (s : str) :
  count_markers s = 0 -> re_sub (repl argv) s = Ok s.
Proof. apply re_sub_no_marker. Qed.

Lemma C5_no_marker_witness :
  count_markers (lit "var x = ['a'];") = 0 /\
  re_sub (repl [lit "replace.py"; lit "f.js"; lit "x"]) (lit "var x = ['a'];")
  = Ok (lit "var x = ['a'];").
Proof.
  split; [reflexivity|].
  apply (C5_no_marker [lit "replace.py"; lit "f.js"; lit "x"]
           (lit "var x = ['a'];")).
  reflexivity.
Defined.

(** ** C6 *)

(** C6, as stated, fails.  With a prefix that is a newline the group of the
    rewritten marker cannot be matched again, and the second application
    returns the result of the first.  And where the marker follows another
    one on its line, it is within the group of that one and gets no prefix
    at all. *)
Lemma C6_counterexample :
  let argv := [lit "replace.py"; lit "f.js"; [newline]] in
  let s := lit "_$jscoverage['foo']" in
  let argv' := [lit "replace.py"; lit "f.js"; lit "p"] in
  let s' := lit "_$jscoverage['a'] _$jscoverage['foo']" in
  (twice argv s = re_sub (repl argv) s /\
   twice argv s = Ok (marker ([newline] ++ lit "/foo")) /\
   twice argv s
   <> Ok (marker ([newline] ++ lit "/" ++ [newline] ++ lit "/foo"))) /\
  (twice argv' s' = Ok (lit "_$jscoverage['p/p/a'] _$jscoverage['foo']") /\
   twice argv' s'
   <> Ok (lit "_$jscoverage['p/p/a'] _$jscoverage['p/p/foo']")).
Proof.
  cbv zeta.
  assert (E : twice [lit "replace.py"; lit "f.js"; [newline]]
                (lit "_$jscoverage['foo']")
              = Ok (marker ([newline] ++ lit "/foo")))
    by (vm_compute; reflexivity).
  assert (E' : twice [lit "replace.py"; lit "f.js"; lit "p"]
                 (lit "_$jscoverage['a'] _$jscoverage['foo']")
               = Ok (lit "_$jscoverage['p/p/a'] _$jscoverage['foo']"))
    by (vm_compute; reflexivity).
  split; [split; [|split] | split].
  - rewrite E. vm_compute. reflexivity.
  - exact E.
  - rewrite E. vm_compute. discriminate.
  - exact E'.
  - rewrite E'. vm_compute. discriminate.
Qed.

Lemma match_here_app_Some (a x g r : str) :
  match_here a = Some (g, r) ->
  exists g' r', match_here (a ++ x) = Some (g', r').
Proof.
  intros H. apply match_here_Some in H. destruct H as [-> Hg].
  rewrite <- !app_assoc, match_here_open, dotstar_marker by exact Hg.
  destruct (dotstar (r ++ x)) as [[g' r']|]; eauto.
Qed.

(** Where no match starts in a stretch before a text, none starts in the
    stretch alone. *)
Lemma count_markers_quiet_prefix (l x : str) :
  count_markers (l ++ x) = count_markers x -> count_markers l = 0.
Proof.
  induction l as [|c l IH]; intros H; [reflexivity|].
  cbn [app] in H. rewrite count_markers_cons in *.
  pose proof (count_markers_app_le l x) as Hle.
  destruct (match_here (c :: l ++ x)) as [[g r]|] eqn:E; [lia|].
  rewrite IH by lia.
  destruct (match_here (c :: l)) as [[g r]|] eqn:E'; [|reflexivity].
  destruct (match_here_app_Some (c :: l) x g r E') as [g' [r' E2]].
  cbn [app] in E2. congruence.
Qed.

Lemma last_line_cons (c : ascii) (t : str) :
  last_line (c :: t) =
  if has_newline t then last_line t
  else if is_newline c then t else c :: t.
Proof. reflexivity. Qed.

Lemma last_line_no_newline (s : str) : has_newline (last_line s) = false.
Proof.
  induction s as [|c t IH]; [reflexivity|].
  rewrite last_line_cons. destruct (has_newline t) eqn:Ht; [exact IH|].
  destruct (is_newline c) eqn:Hc; [exact Ht|].
  unfold has_newline in *. cbn [existsb]. rewrite Hc, Ht. reflexivity.
Qed.

(** A text is its last line, or some text, a newline and its last line. *)
Lemma last_line_spec (s : str) :
  last_line s = s \/ exists a, s = a ++ newline :: last_line s.
Proof.
  induction s as [|c t IH]; [left; reflexivity|].
  rewrite last_line_cons. destruct (has_newline t) eqn:Ht.
  - right. destruct IH as [IH|[a IH]].
    + pose proof (last_line_no_newline t) as H. rewrite IH in H. congruence.
    + exists (c :: a). cbn [app]. f_equal. exact IH.
  - destruct (is_newline c) eqn:Hc.
    + right. exists []. cbn [app]. f_equal.
      apply Ascii.eqb_eq. exact Hc.
    + left. reflexivity.
Qed.

(** The rewriting of a text after which a match starts, when no match
    starts on the last line of the text: the text and what follows are
    rewritten each on its own. *)
Lemma sub_app_line (prefix pre x : str) :
  count_markers (last_line pre ++ x) = count_markers x ->
  sub prefix (pre ++ x) = sub prefix pre ++ sub prefix x.
Proof.
  intros H. pose proof (count_markers_quiet_prefix _ _ H) as Hq.
  destruct (last_line_spec pre) as [E|[a E]].
  - rewrite E in *. rewrite (sub_copy_app prefix pre x H).
    rewrite (sub_no_marker prefix pre Hq). reflexivity.
  - rewrite E at 1 2. rewrite <- app_assoc. cbn [app].
    rewrite !sub_line, (sub_copy_app prefix _ x H).
    rewrite (sub_no_marker prefix _ Hq).
    rewrite <- app_assoc. reflexivity.
Qed.

(** The rewriting of a text that starts with a marker: the marker gets the
    prefix, the rest of its line up to the last closing literal is copied,
    and what follows is rewritten on its own. *)
Lemma sub_marker_then (ident post : str) :
  nonl ident ->
  exists u r,
    post = u ++ r /\ nonl u /\
    forall prefix,
      sub prefix (marker ident ++ post)
      = marker (prefix ++ lit "/" ++ ident) ++ u ++ sub prefix r.
Proof.
  intros Hi. pose proof (dotstar_marker ident post Hi) as Hd.
  destruct (dotstar post) as [[g' r']|] eqn:E.
  - apply dotstar_Some in E. destruct E as [E Hg'].
    exists (g' ++ p_close), r'. split; [rewrite <- app_assoc; exact E|].
    split; [apply nonl_app; [exact Hg' | apply nonl_p_close]|].
    intros prefix. rewrite marker_app, (sub_open prefix _ _ _ Hd).
    unfold marker. rewrite <- !app_assoc. reflexivity.
  - exists [], post. split; [reflexivity|]. split; [constructor|].
    intros prefix. rewrite marker_app, (sub_open prefix _ _ _ Hd).
    reflexivity.
Qed.

Lemma twice_sub (a0 a1 prefix : str) (extra : list str) (s : str) :
  no_newline prefix = true ->
  twice (a0 :: a1 :: prefix :: extra) s
  = Ok (sub (prefix ++ lit "/" ++ prefix) s).
Proof.
  intros Hp. rewrite (twice_doubles_prefix a0 a1 prefix extra s Hp).
  apply re_sub_repl. reflexivity.
Qed.

(** With a marker position in the text, the prefix doubled gives another
    result than the prefix. *)
Lemma sub_doubled_neq (prefix s : str) :
  0 < count_markers s ->
  sub (prefix ++ lit "/" ++ prefix) s <> sub prefix s.
Proof.
  intros H E. apply count_matches_pos in H.
  apply (f_equal (@length ascii)) in E. rewrite !length_sub in E.
  rewrite !length_app in E. change (length (lit "/")) with 1 in E. nia.
Qed.

(** C6, amended. With a prefix that holds no newline, two applications turn
    a marker [_$jscoverage['foo']] that no match starting before it on its
    line takes in into [_$jscoverage['PREFIX/PREFIX/foo']], whatever else
    the input holds: the text before it is rewritten on its own, the rest
    of its line up to the last closing literal is copied and what follows
    is rewritten on its own.  The result is not that of one application. *)
Theorem C6_twice_marker
  (a0 a1 prefix : str) (extra : list str) (pre post : str) :
  no_newline prefix = true ->
  count_markers (last_line pre ++ lit "_$jscoverage['foo']" ++ post)
  = count_markers (lit "_$jscoverage['foo']" ++ post) ->
  exists x u r y,
    post = u ++ r /\ no_newline u = true /\
    twice (a0 :: a1 :: prefix :: extra) pre = Ok x /\
    twice (a0 :: a1 :: prefix :: extra) r = Ok y /\
    twice (a0 :: a1 :: prefix :: extra)
          (pre ++ lit "_$jscoverage['foo']" ++ post)
    = Ok (x ++ (lit "_$jscoverage['" ++ prefix ++ lit "/" ++ prefix
                ++ lit "/foo']") ++ u ++ y) /\
    twice (a0 :: a1 :: prefix :: extra)
          (pre ++ lit "_$jscoverage['foo']" ++ post)
    <> re_sub (repl (a0 :: a1 :: prefix :: extra))
              (pre ++ lit "_$jscoverage['foo']" ++ post).
Proof.
  intros Hp Hline.
  change (lit "_$jscoverage['foo']") with (marker (lit "foo")) in *.
  assert (Hfoo : nonl (lit "foo")) by (apply no_newline_nonl; reflexivity).
  destruct (sub_marker_then (lit "foo") post Hfoo) as [u [r [Epost [Hu Hsub]]]].
  exists (sub (prefix ++ lit "/" ++ prefix) pre), u, r,
         (sub (prefix ++ lit "/" ++ prefix) r).
  split; [exact Epost|]. split; [apply no_newline_nonl; exact Hu|].
  split; [apply twice_sub; exact Hp|]. split; [apply twice_sub; exact Hp|].
  rewrite (twice_sub a0 a1 prefix extra _ Hp).
  split.
  - f_equal. rewrite (sub_app_line _ pre _ Hline), Hsub.
    unfold marker. rewrite <- !app_assoc. reflexivity.
  - rewrite (re_sub_repl (a0 :: a1 :: prefix :: extra) prefix _ eq_refl).
    intros E.
    assert (Hpos : 0 < count_markers (pre ++ marker (lit "foo") ++ post)).
    { pose proof (count_markers_app_le pre (marker (lit "foo") ++ post)).
      pose proof (count_markers_marker_le (lit "foo") post Hfoo). lia. }
    apply (sub_doubled_neq prefix _ Hpos). congruence.
Qed.

Lemma C6_twice_marker_witness :
  let argv := [lit "replace.py"; lit "f.js"; lit "p"] in
  let pre := lit "var a;" ++ [newline] ++ lit "  " in
  let post := lit " _$jscoverage['b'];" ++ [newline] ++ lit "_$jscoverage['c']" in
  no_newline (lit "p") = true /\
  count_markers (last_line pre ++ lit "_$jscoverage['foo']" ++ post)
  = count_markers (lit "_$jscoverage['foo']" ++ post) /\
  exists x u r y,
    post = u ++ r /\ no_newline u = true /\
    twice argv pre = Ok x /\
    twice argv r = Ok y /\
    twice argv (pre ++ lit "_$jscoverage['foo']" ++ post)
    = Ok (x ++ (lit "_$jscoverage['" ++ lit "p" ++ lit "/" ++ lit "p"
                ++ lit "/foo']") ++ u ++ y) /\
    twice argv (pre ++ lit "_$jscoverage['foo']" ++ post)
    <> re_sub (repl argv) (pre ++ lit "_$jscoverage['foo']" ++ post).
Proof.
  cbv zeta. split; [reflexivity|]. split; [reflexivity|].
  apply (C6_twice_marker (lit "replace.py") (lit "f.js") (lit "p") []
           (lit "var a;" ++ [newline] ++ lit "  ")
           (lit " _$jscoverage['b'];" ++ [newline] ++ lit "_$jscoverage['c']"));
    reflexivity.
Defined.

(** ** C7 *)

(** C7. The write of the script, at the start of the file, does not
    truncate: every byte of the old content at an offset at or beyond the
    length of the written text is where it was, and the file is as long as
    the longer of the two. *)
Theorem C7_write_keeps_tail (f : file) (w : str) (i : nat) :
  length w <= i ->
  nth_error (f_data (write w (seek 0 f))) i = nth_error (f_data f) i
  /\ length (f_data (write w (seek 0 f)))
     = Nat.max (length w) (length (f_data f)).
Proof.
  intros H. rewrite write_at_start. split.
  - rewrite nth_error_app2 by exact H. rewrite nth_error_skipn.
    f_equal. lia.
  - rewrite length_app, length_skipn. lia.
Qed.

Lemma C7_write_keeps_tail_witness :
  length (lit "xy") <= 3 /\
  nth_error (f_data (write (lit "xy") (seek 0 (mkfile (lit "abcdef") 6)))) 3
  = nth_error (f_data (mkfile (lit "abcdef") 6)) 3
  /\ length (f_data (write (lit "xy") (seek 0 (mkfile (lit "abcdef") 6))))
     = Nat.max (length (lit "xy")) (length (f_data (mkfile (lit "abcdef") 6))).
Proof.
  split; [simpl; lia|].
  apply (C7_write_keeps_tail (mkfile (lit "abcdef") 6) (lit "xy") 3).
  simpl; lia.
Defined.

(** ** C8 *)

(** C8. After a run with a file and a prefix the file holds the rewritten
    text and nothing else: the rewritten text is never shorter than the
    content that was read, so no byte of the old content is left after
    it. *)
Theorem C8_no_residue
  (argv : list str) (disk : fs) (path prefix content : str) :
  nth_error argv 1 = Some path ->
  nth_error argv 2 = Some prefix ->
  disk path = Some content ->
  exists out,
    re_sub (repl argv) content = Ok out /\
    main argv disk = Ok (store disk path out).
Proof.
  intros H1 H2 Hd. exists (sub prefix content). split.
  - apply re_sub_repl. exact H2.
  - rewrite (main_prefix argv disk path prefix content H1 H2 Hd).
    rewrite skipn_0_all, app_nil_r; [reflexivity|].
    rewrite length_sub. lia.
Qed.

Lemma C8_no_residue_witness :
  let argv := [lit "replace.py"; lit "f.js"; lit "db"] in
  let disk := store (fun _ => None) (lit "f.js") (lit "_$jscoverage['c.js']") in
  nth_error argv 1 = Some (lit "f.js") /\
  nth_error argv 2 = Some (lit "db") /\
  disk (lit "f.js") = Some (lit "_$jscoverage['c.js']") /\
  exists out,
    re_sub (repl argv) (lit "_$jscoverage['c.js']") = Ok out /\
    main argv disk = Ok (store disk (lit "f.js") out).
Proof.
  cbv zeta. split; [reflexivity|]. split; [reflexivity|].
  split; [reflexivity|].
  apply (C8_no_residue [lit "replace.py"; lit "f.js"; lit "db"]
           (store (fun _ => None) (lit "f.js") (lit "_$jscoverage['c.js']"))
           (lit "f.js") (lit "db") (lit "_$jscoverage['c.js']"));
    reflexivity.
Defined.

(** ** C9 *)

(** C9, as stated, fails: without the prefix argument a file without a
    marker is rewritten as it is and the run ends without an exception. *)
Lemma C9_counterexample :
  let argv := [lit "replace.py"; lit "f.js"] in
  let disk := store (fun _ => None) (lit "f.js") (lit "var x = 1;") in
  nth_error argv 2 = None /\
  main argv disk = Ok (store disk (lit "f.js") (lit "var x = 1;")) /\
  main argv disk <> Raise IndexError.
Proof.
  cbv zeta.
  assert (E : main [lit "replace.py"; lit "f.js"]
                (store (fun _ => None) (lit "f.js") (lit "var x = 1;"))
              = Ok (store (store (fun _ => None) (lit "f.js")
                             (lit "var x = 1;"))
                      (lit "f.js") (lit "var x = 1;"))).
  { rewrite (main_no_prefix [lit "replace.py"; lit "f.js"]
               (store (fun _ => None) (lit "f.js") (lit "var x = 1;"))
               (lit "f.js") (lit "var x = 1;") eq_refl eq_refl eq_refl).
    reflexivity. }
  split; [reflexivity|]. split; [exact E|]. rewrite E. discriminate.
Qed.

Lemma re_sub_missing_prefix (argv : list str) (s : str) :
  nth_error argv 2 = None -> count_markers s <> 0 ->
  re_sub (repl argv) s = Raise IndexError.
Proof.
  intros H2. induction s as [|c t IH]; intros E; [contradiction|].
  rewrite count_markers_cons in E. rewrite re_sub_cons.
  destruct (match_here (c :: t)) as [[g r]|].
  - rewrite (repl_missing argv g H2). reflexivity.
  - rewrite IH by exact E. reflexivity.
Qed.

(** The two accounts of the script agree: [main] gives the outcome of
    [run], with the disk of [run] when no exception was raised. *)
Lemma run_main (argv : list str) (disk : fs) :
  main argv disk =
  match snd (run argv disk) with
  | Ok _ => Ok (fst (run argv disk))
  | Raise e => Raise e
  end.
Proof.
  unfold main, run. destruct (getitem argv 1) as [path|e]; [|reflexivity].
  cbn [bind]. destruct (open_rw disk path) as [f|e]; [|reflexivity].
  cbn [bind]. destruct (read f) as [whole_thing text_file].
  destruct (re_sub (repl argv) whole_thing) as [w|e]; reflexivity.
Qed.

(** An exception leaves the disk as it was. *)
Lemma run_raise (argv : list str) (disk : fs) (e : exn) :
  snd (run argv disk) = Raise e -> fst (run argv disk) = disk.
Proof.
  unfold run. destruct (getitem argv 1) as [path|e1]; [|reflexivity].
  destruct (open_rw disk path) as [f|e2]; [|reflexivity].
  destruct (read f) as [whole_thing text_file].
  destruct (re_sub (repl argv) whole_thing) as [w|e3];
    [discriminate | reflexivity].
Qed.

(** C9, amended. Without the prefix argument the run of a file that holds
    a marker position ends with an index error, raised at the first match
    and before anything is written: the disk is as it was.  The run of a
    file that holds no marker position rewrites the file as it is and ends
    without an exception.  Without the path argument the run ends with an
    index error at once. *)
Theorem C9_missing_prefix (a0 path : str) (disk : fs) (content : str) :
  disk path = Some content ->
  run [a0; path] disk
  = (if count_markers content =? 0 then (store disk path content, Ok tt)
     else (disk, Raise IndexError))
  /\ main [a0; path] disk
     = (if count_markers content =? 0 then Ok (store disk path content)
        else Raise IndexError)
  /\ run [a0] disk = (disk, Raise IndexError)
  /\ main [a0] disk = Raise IndexError.
Proof.
  intros Hd. split; [|split; [|split; reflexivity]].
  - unfold run, getitem, open_rw. cbn [nth_error]. rewrite Hd.
    cbn [read f_pos f_data skipn].
    destruct (count_markers content =? 0) eqn:E.
    + apply Nat.eqb_eq in E. rewrite re_sub_no_marker by exact E.
      unfold close. rewrite write_at_start. cbn [f_data].
      rewrite skipn_all, app_nil_r. reflexivity.
    + apply Nat.eqb_neq in E.
      rewrite (re_sub_missing_prefix [a0; path] content eq_refl E).
      reflexivity.
  - apply (main_no_prefix [a0; path] disk path content eq_refl eq_refl Hd).
Qed.

Lemma C9_missing_prefix_witness :
  let disk := store (fun _ => None) (lit "f.js") (lit "_$jscoverage['c.js']") in
  disk (lit "f.js") = Some (lit "_$jscoverage['c.js']") /\
  run [lit "replace.py"; lit "f.js"] disk = (disk, Raise IndexError) /\
  main [lit "replace.py"; lit "f.js"] disk = Raise IndexError /\
  run [lit "replace.py"] disk = (disk, Raise IndexError) /\
  main [lit "replace.py"] disk = Raise IndexError.
Proof.
  cbv zeta. split; [reflexivity|].
  apply (C9_missing_prefix (lit "replace.py") (lit "f.js")
           (store (fun _ => None) (lit "f.js") (lit "_$jscoverage['c.js']"))
           (lit "_$jscoverage['c.js']")).
  reflexivity.
Defined.

(** ** C10 *)

(** C10. With any prefix, the empty one too, the rewritten text is the
    input grown by the length of the prefix and one byte for each match
    replaced, so it is never shorter than the input. *)
Theorem C10_never_shorter
  (a0 a1 prefix : str) (extra : list str) (s : str) :
  exists out,
    re_sub (repl (a0 :: a1 :: prefix :: extra)) s = Ok out /\
    length out = length s + count_matches s * (length prefix + 1) /\
    length s <= length out.
Proof.
  exists (sub prefix s). split; [|split].
  - apply re_sub_repl. reflexivity.
  - apply length_sub.
  - rewrite length_sub. lia.
Qed.

(** * Further properties of the script *)

(** ** The matcher *)

Lemma dotstar_None_iff (r : str) :
  dotstar r = None <->
  (forall g' r', r = g' ++ p_close ++ r' -> ~ nonl g').
Proof.
  split.
  - intros H g' r' -> Hg. rewrite dotstar_marker in H by exact Hg.
    destruct (dotstar r') as [[? ?]|]; discriminate.
  - intros H. destruct (dotstar r) as [[g' r']|] eqn:E; [|reflexivity].
    apply dotstar_Some in E. destruct E as [E Hg].
    exfalso. exact (H g' r' E Hg).
Qed.

(** X1. The pattern matches at the start of a text, with group [g] and rest
    [r], exactly when the text is the opening literal, [g], the closing
    literal and [r], where [g] holds no newline and no closing literal
    stands in [r] before a newline: the group runs to the last closing
    literal of the line and never over a line break. *)
Theorem X1_match_here_spec (s g r : str) :
  match_here s = Some (g, r) <->
  s = p_open ++ g ++ p_close ++ r /\ nonl g /\
  (forall g' r', r = g' ++ p_close ++ r' -> ~ nonl g').
Proof.
  split.
  - intros H. pose proof (match_here_Some s g r H) as [Hs Hg].
    apply match_here_rest in H.
    split; [exact Hs|]. split; [exact Hg|].
    apply (proj1 (dotstar_None_iff r)). exact H.
  - intros [-> [Hg Hr]]. apply (proj2 (dotstar_None_iff r)) in Hr.
    rewrite match_here_open, dotstar_marker, Hr by exact Hg. reflexivity.
Qed.

(** ** Short texts *)

Lemma count_markers_short (s : str) : length s < 16 -> count_markers s = 0.
Proof.
  induction s as [|c t IH]; intros H; [reflexivity|].
  rewrite count_markers_cons.
  destruct (match_here (c :: t)) as [[g r]|] eqn:E.
  - apply match_here_Some in E. destruct E as [E _].
    apply (f_equal (@length ascii)) in E. rewrite !length_app in E.
    change (length p_open) with 14 in E. change (length p_close) with 2 in E.
    lia.
  - apply IH. simpl in H. lia.
Qed.

(** X2. A text of less than sixteen bytes, the length of the two literals
    of the pattern, is returned as it is, whatever the arguments. *)
Theorem X2_short_text (argv : list str) (s : str) :
  length s < 16 -> re_sub (repl argv) s = Ok s.
Proof.
  intros H. apply re_sub_no_marker. apply count_markers_short. exact H.
Qed.

Lemma X2_short_text_witness :
  length (lit "_$jscoverage[']") < 16 /\
  re_sub (repl [lit "replace.py"]) (lit "_$jscoverage[']")
  = Ok (lit "_$jscoverage[']").
Proof.
  split; [simpl; lia|].
  apply (X2_short_text [lit "replace.py"] (lit "_$jscoverage[']")).
  simpl; lia.
Defined.

(** ** Texts the rewriting leaves as they are *)

(** X3. With a prefix at hand the rewriting returns its input exactly when
    the input holds no marker position. *)
Theorem X3_unchanged_iff_no_marker
  (a0 a1 prefix : str) (extra : list str) (s : str) :
  re_sub (repl (a0 :: a1 :: prefix :: extra)) s = Ok s <->
  count_markers s = 0.
Proof.
  split.
  - rewrite (re_sub_repl (a0 :: a1 :: prefix :: extra) prefix s eq_refl).
    intros H. injection H as H.
    apply (f_equal (@length ascii)) in H. rewrite length_sub in H.
    destruct (count_markers s) as [|k] eqn:E; [reflexivity|].
    assert (Hk : 0 < count_matches s) by (apply count_matches_pos; lia).
    nia.
  - apply re_sub_no_marker.
Qed.

(** ** Lines *)

(** X4. The rewriting works line by line: the result for two texts joined
    by a newline is the result for the first, the newline and the result
    for the second. *)
Theorem X4_line_by_line
  (a0 a1 prefix : str) (extra : list str) (a b : str) :
  exists x y,
    re_sub (repl (a0 :: a1 :: prefix :: extra)) a = Ok x /\
    re_sub (repl (a0 :: a1 :: prefix :: extra)) b = Ok y /\
    re_sub (repl (a0 :: a1 :: prefix :: extra)) (a ++ newline :: b)
    = Ok (x ++ newline :: y).
Proof.
  exists (sub prefix a), (sub prefix b).
  rewrite !(re_sub_repl (a0 :: a1 :: prefix :: extra) prefix _ eq_refl).
  rewrite sub_line. repeat split.
Qed.

Lemma count_markers_quiet (r : str) :
  nonl r -> dotstar r = None -> count_markers r = 0.
Proof.
  intros Hr; induction Hr as [|c r Hc Hr IH]; intros H; [reflexivity|].
  rewrite count_markers_cons, (match_here_None _ H).
  apply IH. apply (dotstar_None_app [c] r); [|exact H].
  constructor; [exact Hc | constructor].
Qed.

Lemma count_matches_nonl (s : str) : nonl s -> count_matches s <= 1.
Proof.
  intros Hs; induction Hs as [|c t Hc Ht IH].
  - rewrite count_matches_equation_1. lia.
  - rewrite count_matches_cons.
    destruct (match_here (c :: t)) as [[g r]|] eqn:E; [|exact IH].
    pose proof (match_here_rest _ _ _ E) as Hr.
    apply match_here_tail in E. destruct E as [_ E].
    assert (Hnl : nonl r).
    { rewrite E in Ht. apply Forall_app in Ht. apply Ht. }
    pose proof (count_matches_le r) as Hle.
    rewrite (count_markers_quiet r Hnl Hr) in Hle. lia.
Qed.

(** X5. On one line at most one match is replaced, however many markers
    the line holds: the result is the line or the line grown by the prefix
    and one byte. *)
Theorem X5_one_match_per_line
  (a0 a1 prefix : str) (extra : list str) (s : str) :
  no_newline s = true ->
  count_matches s <= 1 /\
  exists out,
    re_sub (repl (a0 :: a1 :: prefix :: extra)) s = Ok out /\
    (length out = length s \/ length out = length s + length prefix + 1).
Proof.
  intros H. apply no_newline_nonl in H.
  pose proof (count_matches_nonl s H) as Hk. split; [exact Hk|].
  exists (sub prefix s). split; [apply re_sub_repl; reflexivity|].
  rewrite length_sub.
  destruct (count_matches s) as [|[|k]]; [left | right | ]; lia.
Qed.

Lemma X5_one_match_per_line_witness :
  let s := lit "_$jscoverage['a'] _$jscoverage['b'] _$jscoverage['c']" in
  no_newline s = true /\
  count_matches s <= 1 /\
  exists out,
    re_sub (repl [lit "replace.py"; lit "f.js"; lit "p"]) s = Ok out /\
    (length out = length s \/ length out = length s + length (lit "p") + 1).
Proof.
  cbv zeta. split; [reflexivity|].
  apply (X5_one_match_per_line (lit "replace.py") (lit "f.js") (lit "p") []
           (lit "_$jscoverage['a'] _$jscoverage['b'] _$jscoverage['c']")).
  reflexivity.
Defined.

(** ** Applying the rewriting twice *)

(** X6. With a prefix that holds no newline, two applications are, for
    every text, one application with the prefix doubled, and they give the
    result of one application exactly when the text holds no marker
    position. *)
Theorem X6_twice_any_text
  (a0 a1 prefix : str) (extra : list str) (s : str) :
  no_newline prefix = true ->
  twice (a0 :: a1 :: prefix :: extra) s
  = re_sub (repl (a0 :: a1 :: (prefix ++ lit "/" ++ prefix) :: extra)) s
  /\ (twice (a0 :: a1 :: prefix :: extra) s
      = re_sub (repl (a0 :: a1 :: prefix :: extra)) s
      <-> count_markers s = 0).
Proof.
  intros Hp.
  pose proof (twice_doubles_prefix a0 a1 prefix extra s Hp) as Htw.
  split; [exact Htw|]. rewrite Htw.
  rewrite (re_sub_repl (a0 :: a1 :: (prefix ++ lit "/" ++ prefix) :: extra)
             (prefix ++ lit "/" ++ prefix) s eq_refl).
  rewrite (re_sub_repl (a0 :: a1 :: prefix :: extra) prefix s eq_refl).
  split.
  - intros H. injection H as H.
    apply (f_equal (@length ascii)) in H. rewrite !length_sub in H.
    rewrite !length_app in H. cbn [length] in H.
    destruct (count_markers s) as [|k] eqn:E; [reflexivity|].
    assert (Hk : 0 < count_matches s) by (apply count_matches_pos; lia).
    nia.
  - intros H. rewrite !sub_no_marker by exact H. reflexivity.
Qed.

Lemma X6_twice_any_text_witness :
  let s := lit "_$jscoverage['a'] _$jscoverage['foo']" in
  no_newline (lit "p") = true /\
  twice [lit "replace.py"; lit "f.js"; lit "p"] s
  = re_sub (repl [lit "replace.py"; lit "f.js"; lit "p" ++ lit "/" ++ lit "p"]) s
  /\ (twice [lit "replace.py"; lit "f.js"; lit "p"] s
      = re_sub (repl [lit "replace.py"; lit "f.js"; lit "p"]) s
      <-> count_markers s = 0).
Proof.
  cbv zeta. split; [reflexivity|].
  apply (X6_twice_any_text (lit "replace.py") (lit "f.js") (lit "p") []
           (lit "_$jscoverage['a'] _$jscoverage['foo']")).
  reflexivity.
Defined.

(** ** The lines of the result *)

Lemma newlines_app (a b : str) : newlines (a ++ b) = newlines a + newlines b.
Proof. apply count_occ_app. Qed.

Lemma newlines_nonl (g : str) : nonl g -> newlines g = 0.
Proof.
  intros Hg; induction Hg as [|c g Hc Hg IH]; [reflexivity|].
  unfold newlines. rewrite count_occ_cons_neq; [exact IH|].
  apply Ascii.eqb_neq. exact Hc.
Qed.

Lemma newlines_sub (prefix s : str) :
  nonl prefix -> newlines (sub prefix s) = newlines s.
Proof.
  intros Hp. induction s as [|c t g r Hm IH|c t Hm IH] using scan_ind.
  - rewrite sub_nil. reflexivity.
  - rewrite (sub_match prefix c t g r Hm).
    apply match_here_Some in Hm. destruct Hm as [-> Hg].
    unfold marker. rewrite !newlines_app, IH.
    rewrite (newlines_nonl prefix Hp), (newlines_nonl g Hg).
    reflexivity.
  - rewrite (sub_copy prefix c t Hm).
    change (c :: sub prefix t) with ([c] ++ sub prefix t).
    change (c :: t) with ([c] ++ t).
    rewrite !newlines_app, IH. reflexivity.
Qed.

(** X7. With a prefix that holds no newline the result has as many
    newlines as the input: the rewriting keeps the number of lines. *)
Theorem X7_keeps_lines
  (a0 a1 prefix : str) (extra : list str) (s : str) :
  no_newline prefix = true ->
  exists out,
    re_sub (repl (a0 :: a1 :: prefix :: extra)) s = Ok out /\
    newlines out = newlines s.
Proof.
  intros Hp. apply no_newline_nonl in Hp. exists (sub prefix s).
  split; [apply re_sub_repl; reflexivity | apply newlines_sub; exact Hp].
Qed.

Lemma X7_keeps_lines_witness :
  let s := lit "_$jscoverage['a']" ++ [newline] ++ lit "_$jscoverage['b']" in
  no_newline (lit "p") = true /\
  exists out,
    re_sub (repl [lit "replace.py"; lit "f.js"; lit "p"]) s = Ok out /\
    newlines out = newlines s.
Proof.
  cbv zeta. split; [reflexivity|].
  apply (X7_keeps_lines (lit "replace.py") (lit "f.js") (lit "p") []
           (lit "_$jscoverage['a']" ++ [newline] ++ lit "_$jscoverage['b']")).
  reflexivity.
Defined.

(** ** The run on the disk *)

Lemma path_eqb_refl (p : str) : path_eqb p p = true.
Proof.
  unfold path_eqb. destruct (list_eq_dec ascii_dec p p); [reflexivity|].
  contradiction.
Qed.

Lemma path_eqb_neq (p q : str) : p <> q -> path_eqb p q = false.
Proof.
  intros H. unfold path_eqb.
  destruct (list_eq_dec ascii_dec p q); [contradiction | reflexivity].
Qed.

Lemma store_same (disk : fs) (path data : str) :
  store disk path data path = Some data.
Proof. unfold store. rewrite path_eqb_refl. reflexivity. Qed.

Lemma store_other (disk : fs) (path data q : str) :
  q <> path -> store disk path data q = disk q.
Proof. intros H. unfold store. rewrite (path_eqb_neq q path H). reflexivity. Qed.

Lemma main_missing_file (argv : list str) (disk : fs) (path : str) :
  nth_error argv 1 = Some path -> disk path = None ->
  main argv disk = Raise IOError.
Proof.
  intros H1 Hd. unfold main, getitem, open_rw. rewrite H1. cbn [bind].
  rewrite Hd. reflexivity.
Qed.

(** The file after a run with a prefix is the rewritten text. *)
Lemma main_prefix_exact
  (argv : list str) (disk : fs) (path prefix content : str) :
  nth_error argv 1 = Some path ->
  nth_error argv 2 = Some prefix ->
  disk path = Some content ->
  main argv disk = Ok (store disk path (sub prefix content)).
Proof.
  intros H1 H2 Hd.
  rewrite (main_prefix argv disk path prefix content H1 H2 Hd).
  rewrite skipn_0_all, app_nil_r; [reflexivity|].
  rewrite length_sub. lia.
Qed.

Lemma main_no_path (argv : list str) (disk : fs) :
  nth_error argv 1 = None -> main argv disk = Raise IndexError.
Proof. intros H. unfold main, getitem. rewrite H. reflexivity. Qed.

(** X8. The run ends with an I/O error exactly when the first argument is
    there and [open] fails on it (the path has no entry among the files
    that can be opened for reading and writing), whether the prefix
    argument is there or not: the file is opened before the prefix is
    looked at, and no later step raises an I/O error. *)
Theorem X8_io_error_iff (argv : list str) (disk : fs) :
  main argv disk = Raise IOError <->
  exists path, nth_error argv 1 = Some path /\ disk path = None.
Proof.
  split.
  - intros H. destruct (nth_error argv 1) as [path|] eqn:H1;
      [|rewrite (main_no_path argv disk H1) in H; discriminate].
    exists path. split; [reflexivity|].
    destruct (disk path) as [content|] eqn:Hd; [exfalso | reflexivity].
    destruct (nth_error argv 2) as [prefix|] eqn:H2.
    + rewrite (main_prefix_exact argv disk path prefix content H1 H2 Hd) in H.
      discriminate.
    + rewrite (main_no_prefix argv disk path content H1 H2 Hd) in H.
      destruct (count_markers content =? 0); discriminate.
  - intros [path [H1 Hd]]. exact (main_missing_file argv disk path H1 Hd).
Qed.

(** X12. The run ends without an exception exactly when the first argument
    is there, [open] succeeds on it (the path names a file that can be
    opened for reading and writing) and either the prefix argument is there
    or the file holds no marker position. *)
Theorem X12_success_iff (argv : list str) (disk : fs) :
  (exists disk', main argv disk = Ok disk') <->
  exists path content,
    nth_error argv 1 = Some path /\ disk path = Some content /\
    (nth_error argv 2 = None -> count_markers content = 0).
Proof.
  split.
  - intros [disk' H]. destruct (nth_error argv 1) as [path|] eqn:H1;
      [|rewrite (main_no_path argv disk H1) in H; discriminate].
    destruct (disk path) as [content|] eqn:Hd;
      [|rewrite (main_missing_file argv disk path H1 Hd) in H; discriminate].
    exists path, content. split; [reflexivity|]. split; [exact Hd|].
    intros H2. rewrite (main_no_prefix argv disk path content H1 H2 Hd) in H.
    destruct (count_markers content =? 0) eqn:E; [|discriminate].
    apply Nat.eqb_eq. exact E.
  - intros [path [content [H1 [Hd H2]]]].
    destruct (nth_error argv 2) as [prefix|] eqn:E2.
    + exists (store disk path (sub prefix content)).
      exact (main_prefix_exact argv disk path prefix content H1 E2 Hd).
    + exists (store disk path content).
      rewrite (main_no_prefix argv disk path content H1 E2 Hd).
      rewrite (H2 eq_refl). reflexivity.
Qed.

(** X9. A run that ends without an exception has rewritten the file named
    by the first argument, which holds the result of [re.sub] on its old
    content, and has left every other file of the disk as it was. *)
Theorem X9_only_the_file
  (argv : list str) (disk disk' : fs) (path : str) :
  nth_error argv 1 = Some path ->
  main argv disk = Ok disk' ->
  (exists old new,
      disk path = Some old /\
      re_sub (repl argv) old = Ok new /\
      disk' path = Some new) /\
  (forall q, q <> path -> disk' q = disk q).
Proof.
  intros H1 H.
  destruct (disk path) as [old|] eqn:Hd;
    [|rewrite (main_missing_file argv disk path H1 Hd) in H; discriminate].
  destruct (nth_error argv 2) as [prefix|] eqn:H2.
  - rewrite (main_prefix_exact argv disk path prefix old H1 H2 Hd) in H.
    injection H as <-. split.
    + exists old, (sub prefix old). split; [reflexivity|]. split.
      * apply re_sub_repl. exact H2.
      * apply store_same.
    + intros q Hq. apply store_other. exact Hq.
  - rewrite (main_no_prefix argv disk path old H1 H2 Hd) in H.
    destruct (count_markers old =? 0) eqn:E; [|discriminate].
    apply Nat.eqb_eq in E. injection H as <-. split.
    + exists old, old. split; [reflexivity|]. split.
      * apply re_sub_no_marker. exact E.
      * apply store_same.
    + intros q Hq. apply store_other. exact Hq.
Qed.

Lemma X9_only_the_file_witness :
  let argv := [lit "replace.py"; lit "f.js"; lit "db"] in
  let disk := store (store (fun _ => None) (lit "g.js") (lit "_$jscoverage['g.js']"))
                    (lit "f.js") (lit "_$jscoverage['c.js']") in
  let disk' := store disk (lit "f.js") (lit "_$jscoverage['db/c.js']") in
  nth_error argv 1 = Some (lit "f.js") /\
  main argv disk = Ok disk' /\
  (exists old new,
      disk (lit "f.js") = Some old /\
      re_sub (repl argv) old = Ok new /\
      disk' (lit "f.js") = Some new) /\
  (forall q, q <> lit "f.js" -> disk' q = disk q).
Proof.
  cbv zeta. split; [reflexivity|].
  assert (E : main [lit "replace.py"; lit "f.js"; lit "db"]
                (store (store (fun _ => None) (lit "g.js")
                          (lit "_$jscoverage['g.js']"))
                   (lit "f.js") (lit "_$jscoverage['c.js']"))
              = Ok (store (store (store (fun _ => None) (lit "g.js")
                                    (lit "_$jscoverage['g.js']"))
                             (lit "f.js") (lit "_$jscoverage['c.js']"))
                      (lit "f.js") (lit "_$jscoverage['db/c.js']")))
    by (vm_compute; reflexivity).
  split; [exact E|].
  exact (X9_only_the_file [lit "replace.py"; lit "f.js"; lit "db"] _ _
           (lit "f.js") eq_refl E).
Defined.

(** X10. The run depends on the path and the prefix alone: the name of the
    script and the arguments after the prefix make no difference. *)
Theorem X10_other_arguments_unused
  (a0 b0 path prefix : str) (extra extra' : list str) (disk : fs) :
  main (a0 :: path :: prefix :: extra) disk
  = main (b0 :: path :: prefix :: extra') disk.
Proof.
  destruct (disk path) as [content|] eqn:Hd.
  - rewrite (main_prefix_exact (a0 :: path :: prefix :: extra) disk path
               prefix content eq_refl eq_refl Hd).
    rewrite (main_prefix_exact (b0 :: path :: prefix :: extra') disk path
               prefix content eq_refl eq_refl Hd).
    reflexivity.
  - rewrite (main_missing_file (a0 :: path :: prefix :: extra) disk path
               eq_refl Hd).
    rewrite (main_missing_file (b0 :: path :: prefix :: extra') disk path
               eq_refl Hd).
    reflexivity.
Qed.

(** X11. Two runs on the same file with a prefix that holds no newline
    leave in the file what one run with the doubled prefix writes, and
    leave the other files as they were. *)
Theorem X11_two_runs
  (a0 path prefix : str) (extra : list str) (disk : fs) (content : str) :
  no_newline prefix = true ->
  disk path = Some content ->
  exists d1 d2 out,
    main (a0 :: path :: prefix :: extra) disk = Ok d1 /\
    main (a0 :: path :: prefix :: extra) d1 = Ok d2 /\
    re_sub (repl (a0 :: path :: (prefix ++ lit "/" ++ prefix) :: extra))
           content = Ok out /\
    d2 path = Some out /\
    (forall q, q <> path -> d2 q = disk q).
Proof.
  intros Hp Hd. apply no_newline_nonl in Hp.
  exists (store disk path (sub prefix content)).
  exists (store (store disk path (sub prefix content)) path
            (sub prefix (sub prefix content))).
  exists (sub (prefix ++ lit "/" ++ prefix) content).
  split; [|split; [|split; [|split]]].
  - apply (main_prefix_exact (a0 :: path :: prefix :: extra) disk path
             prefix content eq_refl eq_refl Hd).
  - apply (main_prefix_exact (a0 :: path :: prefix :: extra)
             (store disk path (sub prefix content)) path prefix
             (sub prefix content) eq_refl eq_refl).
    apply store_same.
  - apply re_sub_repl. reflexivity.
  - rewrite store_same, sub_sub by exact Hp. reflexivity.
  - intros q Hq. rewrite !store_other by exact Hq. reflexivity.
Qed.

Lemma X11_two_runs_witness :
  let disk := store (fun _ => None) (lit "f.js") (lit "_$jscoverage['c.js']") in
  no_newline (lit "db") = true /\
  disk (lit "f.js") = Some (lit "_$jscoverage['c.js']") /\
  exists d1 d2 out,
    main [lit "replace.py"; lit "f.js"; lit "db"] disk = Ok d1 /\
    main [lit "replace.py"; lit "f.js"; lit "db"] d1 = Ok d2 /\
    re_sub (repl [lit "replace.py"; lit "f.js"; lit "db" ++ lit "/" ++ lit "db"])
           (lit "_$jscoverage['c.js']") = Ok out /\
    d2 (lit "f.js") = Some out /\
    (forall q, q <> lit "f.js" -> d2 q = disk q).
Proof.
  cbv zeta. split; [reflexivity|]. split; [reflexivity|].
  apply (X11_two_runs (lit "replace.py") (lit "f.js") (lit "db") []
           (store (fun _ => None) (lit "f.js") (lit "_$jscoverage['c.js']"))
           (lit "_$jscoverage['c.js']"));
    reflexivity.
Defined.
